(** * Business Logic Central: the dispatch registry

    A shallow embedding of [BusinessLogicCentralService]
    (src/lib/business-logic-central.service.js, which holds both the
    TypeScript class and the older compiled JavaScript of the same class),
    of [BusinessLogicEvent] (business-logic-event.interface.ts) and of
    [BusinessLogicInstruction] (business-logic-instruction.type.ts).

    Modelling choices.
    - The private object [_businessLogicEvents] is used as a dictionary; it is
      a finite map from its own string keys to registrations. The test
      [Object.defineProperty] with a data descriptor on an absent key is
      insertion. The call [this._businessLogicEvents.hasOwnProperty(k)]
      looks the method up on the object itself: as long as no own key is
      named hasOwnProperty it finds the method of [Object.prototype], which
      tests membership of [k] among the own keys; once a registration is
      stored under the name hasOwnProperty the lookup finds that
      registration, which is no function, and the call raises [TypeError].
    - An instruction is a callback supplied by the application: it reads its
      optional argument array, acts on the application's state and answers
      with a boolean. The application's state is a parameter [W]; the
      registry's private dictionary is no part of it, so an instruction does
      not call back into the service while an event is being fired.
    - Reading a property of [undefined] raises [TypeError]; every method runs
      in a state monad whose computations either complete normally or throw,
      the state reached so far being kept in both cases.
    - Every [console.log] is guarded by the constant [debug], which is
      [false]; these statements are left out. *)

From stdpp Require Import base option list strings gmap.

(** ** Completions *)

Inductive JsError : Type :=
| TypeError.

Inductive Completion (A : Type) : Type :=
| Normal (a : A)
| Throw (e : JsError).

Arguments Normal {A} a.
Arguments Throw {A} e.

Inductive LoopControl : Type :=
| Continue
| Break.

Section Service.

Context {Any W : Type}.

(** ** Data model *)

(** [type BusinessLogicInstruction = (args?: Array<any>) => boolean] *)
Definition BusinessLogicInstruction : Type :=
  option (list Any) → W → bool * W.

(** [interface BusinessLogicEvent]: [eventParameters] and [eventInstructions]
    are optional members, [None] is [undefined]. *)
Record BusinessLogicEvent : Type := {
  eventName : string;
  eventParameters : option (list Any);
  eventInstructions : option (list BusinessLogicInstruction)
}.

(** The fields assigned by the constructor. *)
Record BusinessLogicCentralService : Type := {
  _name : string;
  _businessLogicEvents : gmap string BusinessLogicEvent
}.

(** One call of an instruction: the callback, the argument it was handed and
    the boolean it answered. *)
Record Invocation : Type := {
  invoked : BusinessLogicInstruction;
  received : option (list Any);
  outcome : bool
}.

(** What a method can read and change: the service instance, the
    application's state, and the calls made so far (oldest first). *)
Record Runtime : Type := {
  service : BusinessLogicCentralService;
  world : W;
  invocations : list Invocation
}.

(** ** The monad of methods *)

Definition Js (A : Type) : Type := Runtime → Completion A * Runtime.

Definition js_ret {A} (a : A) : Js A := λ rt, (Normal a, rt).

Definition js_throw {A} (e : JsError) : Js A := λ rt, (Throw e, rt).

Definition js_bind {A B} (m : Js A) (k : A → Js B) : Js B :=
  λ rt, match m rt with
        | (Normal a, rt') => k a rt'
        | (Throw e, rt') => (Throw e, rt')
        end.

Notation "x <~ m ; k" := (js_bind m (λ x, k))
  (at level 100, m at next level, k at level 200, right associativity).
Notation "m ;~ k" := (js_bind m (λ _, k))
  (at level 100, k at level 200, right associativity).

(** ** Primitive steps *)

(** [this._businessLogicEvents.hasOwnProperty(key)]: the property
    [hasOwnProperty] is read from the object first. An own key of that name
    holds a registration, and calling it raises; otherwise the inherited
    method answers whether [key] is an own key. *)
Definition hasOwnProperty (key : string) : Js bool :=
  λ rt, match _businessLogicEvents (service rt) !! "hasOwnProperty"%string with
        | Some _ => (Throw TypeError, rt)
        | None =>
            (Normal (bool_decide (is_Some (_businessLogicEvents (service rt) !! key))),
             rt)
        end.

(** [this._businessLogicEvents[key]]: [undefined] when the key is absent. The
    methods read it under a key just tested or just defined as an own key,
    and the compiled method under the key of an event object, which
    [Object.prototype] does not have. *)
Definition getRegistration (key : string) : Js (option BusinessLogicEvent) :=
  λ rt, (Normal (_businessLogicEvents (service rt) !! key), rt).

(** [r.eventInstructions]: raises when [r] is [undefined]. *)
Definition getEventInstructions (r : option BusinessLogicEvent)
  : Js (option (list BusinessLogicInstruction)) :=
  match r with
  | Some registration => js_ret (eventInstructions registration)
  | None => js_throw TypeError
  end.

(** Use of [a] as an array ([a.length], [a.push], iteration): raises when [a]
    is [undefined]. *)
Definition asArray (a : option (list BusinessLogicInstruction))
  : Js (list BusinessLogicInstruction) :=
  match a with
  | Some instructions => js_ret instructions
  | None => js_throw TypeError
  end.

(** [Object.defineProperty(this._businessLogicEvents, key, { value, ... })]
    and the in-place update of the object stored under [key]. *)
Definition setRegistration (key : string) (value : BusinessLogicEvent) : Js unit :=
  λ rt, (Normal (),
         {| service := {| _name := _name (service rt);
                          _businessLogicEvents :=
                            <[key := value]> (_businessLogicEvents (service rt)) |};
            world := world rt;
            invocations := invocations rt |}).

(** [instruction(args)]: the callback runs on the application's state. *)
Definition call (instruction : BusinessLogicInstruction) (args : option (list Any))
  : Js bool :=
  λ rt, let '(b, w) := instruction args (world rt) in
        (Normal b,
         {| service := service rt;
            world := w;
            invocations := invocations rt ++
              [{| invoked := instruction; received := args; outcome := b |}] |}).

(** [for (const x of xs) { body }] where the body may [break]. *)
Fixpoint for_of {A} (xs : list A) (body : A → Js LoopControl) : Js unit :=
  match xs with
  | [] => js_ret ()
  | x :: rest =>
      c <~ body x;
      match c with
      | Break => js_ret ()
      | Continue => for_of rest body
      end
  end.

(** [for (var _i = i; _i < xs.length; _i++) { var x = xs[_i]; body }], with
    [n] bounding the iterations that remain. *)
Fixpoint for_index {A} (n i : nat) (xs : list A) (body : A → Js LoopControl)
  : Js unit :=
  match n with
  | O => js_ret ()
  | S n' =>
      if bool_decide (i < length xs) then
        match xs !! i with
        | Some x =>
            c <~ body x;
            match c with
            | Break => js_ret ()
            | Continue => for_index n' (S i) xs body
            end
        | None => js_throw TypeError
        end
      else js_ret ()
  end.

(** ** The service *)

(** [constructor()] *)
Definition new_BusinessLogicCentralService : BusinessLogicCentralService :=
  {| _name := "BusinessLogicCentralService"%string; _businessLogicEvents := ∅ |}.

(** [private _initializeEvent(eventName)] *)
Definition _initializeEvent (name : string) : Js unit :=
  initialized <~ hasOwnProperty name;
  if initialized then js_ret ()
  else setRegistration name
         {| eventName := name; eventParameters := None; eventInstructions := Some [] |}.

(** [public addInstructionToEvent(instruction, eventName)] *)
Definition addInstructionToEvent
    (instruction : BusinessLogicInstruction) (name : string) : Js unit :=
  known <~ hasOwnProperty name;
  (if negb known then _initializeEvent name else js_ret ()) ;~
  registration <~ getRegistration name;
  member <~ getEventInstructions registration;
  instructions <~ asArray member;
  match registration with
  | Some r =>
      setRegistration name
        {| eventName := eventName r;
           eventParameters := eventParameters r;
           eventInstructions := Some (instructions ++ [instruction]) |}
  | None => js_throw TypeError
  end.

(** The body of the loop shared by the two firing methods. *)
Definition applyInstruction (event : BusinessLogicEvent)
    (instruction : BusinessLogicInstruction) : Js LoopControl :=
  result <~ call instruction (eventParameters event);
  if result then js_ret Break else js_ret Continue.

(** [public doEvent(event)] *)
Definition doEvent (event : BusinessLogicEvent) : Js bool :=
  known <~ hasOwnProperty (eventName event);
  if negb known then js_ret false
  else
    registration <~ getRegistration (eventName event);
    member <~ getEventInstructions registration;
    checked <~ asArray member;
    if length checked =? 0 then js_ret false
    else
      registration' <~ getRegistration (eventName event);
      member' <~ getEventInstructions registration';
      instructions <~ asArray member';
      for_of instructions (applyInstruction event) ;~
      js_ret true.

(** [event] used as a property key, as in [this._businessLogicEvents[event]]:
    an object literal is converted with [Object.prototype.toString]. *)
Definition toPropertyKey (event : BusinessLogicEvent) : string :=
  "[object Object]"%string.

(** [executeInstructionsForEvent(event)], the method of the compiled
    JavaScript class. *)
Definition executeInstructionsForEvent (event : BusinessLogicEvent) : Js bool :=
  known <~ hasOwnProperty (eventName event);
  if negb known then js_ret false
  else
    registration <~ getRegistration (toPropertyKey event);
    member <~ getEventInstructions registration;
    checked <~ asArray member;
    if length checked =? 0 then js_ret false
    else
      registration' <~ getRegistration (eventName event);
      member' <~ getEventInstructions registration';
      instructions <~ asArray member';
      for_index (length instructions) 0 instructions (applyInstruction event) ;~
      js_ret true.

End Service.

Arguments BusinessLogicInstruction : clear implicits.
Arguments BusinessLogicEvent : clear implicits.
Arguments BusinessLogicCentralService : clear implicits.
Arguments Invocation : clear implicits.
Arguments Runtime : clear implicits.
Arguments Js : clear implicits.

(** ** Specification-level notions *)

Section Specification.

Context {Any W : Type}.

(** What firing an instruction list means (one firing, arguments [args]):
    the instructions are tried in order; one that answers [true] ends the
    firing; one that answers [false] hands over to the next; the firing also
    ends when the list is exhausted. [short_circuit_run args l w calls w']:
    started in application state [w] on the list [l], the firing makes exactly
    the calls [calls] and leaves the application in state [w']. *)
Inductive short_circuit_run (args : option (list Any))
  : list (BusinessLogicInstruction Any W) → W → list (Invocation Any W) → W → Prop :=
| run_exhausted w :
    short_circuit_run args [] w [] w
| run_applied i rest w w' :
    i args w = (true, w') →
    short_circuit_run args (i :: rest) w
      [{| invoked := i; received := args; outcome := true |}] w'
| run_skipped i rest w w1 calls w' :
    i args w = (false, w1) →
    short_circuit_run args rest w1 calls w' →
    short_circuit_run args (i :: rest) w
      ({| invoked := i; received := args; outcome := false |} :: calls) w'.

(** The registry invariant: every registration is stored under its own name
    and carries a defined instruction list. *)
Definition registry_invariant (s : BusinessLogicCentralService Any W) : Prop :=
  ∀ key registration,
    _businessLogicEvents s !! key = Some registration →
    eventName registration = key ∧ is_Some (eventInstructions registration).

(** The method [hasOwnProperty] of the registry object is still the inherited
    one: no registration is stored under that name. *)
Definition method_intact (s : BusinessLogicCentralService Any W) : Prop :=
  _businessLogicEvents s !! "hasOwnProperty"%string = None.

(** The runtime [rt] after a firing that left the service alone, moved the
    application to [w] and made the calls [calls]. *)
Definition after_calls (rt : Runtime Any W) (w : W) (calls : list (Invocation Any W))
  : Runtime Any W :=
  {| service := service rt; world := w; invocations := invocations rt ++ calls |}.

(** The runtime [rt] with the registration [r] stored under [key]. *)
Definition with_registration (rt : Runtime Any W) (key : string)
    (r : BusinessLogicEvent Any W) : Runtime Any W :=
  {| service := {| _name := _name (service rt);
                   _businessLogicEvents :=
                     <[key := r]> (_businessLogicEvents (service rt)) |};
     world := world rt;
     invocations := invocations rt |}.

(** Programs of the public interface, run from left to right. *)
Inductive Operation : Type :=
| Register (instruction : BusinessLogicInstruction Any W) (name : string)
| Fire (event : BusinessLogicEvent Any W).

Definition run_operation (op : Operation) (rt : Runtime Any W) : Runtime Any W :=
  match op with
  | Register instruction name => snd (addInstructionToEvent instruction name rt)
  | Fire event => snd (doEvent event rt)
  end.

Definition run_operations (ops : list Operation) (rt : Runtime Any W) : Runtime Any W :=
  foldl (λ rt op, run_operation op rt) rt ops.

End Specification.

(** ** Programs of registrations *)

Section Programs.

Context {Any W : Type}.

(** A runtime around a service just constructed. *)
Definition new_runtime (w : W) : Runtime Any W :=
  {| service := new_BusinessLogicCentralService; world := w; invocations := [] |}.

(** The instructions that the program [ops] registers under [name], in the
    order of the program. *)
Fixpoint registered_under (name : string) (ops : list (@Operation Any W))
  : list (BusinessLogicInstruction Any W) :=
  match ops with
  | [] => []
  | Register instruction n :: rest =>
      if decide (n = name) then instruction :: registered_under name rest
      else registered_under name rest
  | Fire _ :: rest => registered_under name rest
  end.

(** The names under which the program [ops] registers an instruction. *)
Fixpoint registered_names (ops : list (@Operation Any W)) : list string :=
  match ops with
  | [] => []
  | Register _ n :: rest => n :: registered_names rest
  | Fire _ :: rest => registered_names rest
  end.

(** The entry found under [name] once the instructions [l] have been
    registered there on a new service: none as long as [l] is empty. *)
Definition registration_of (name : string) (l : list (BusinessLogicInstruction Any W))
  : option (BusinessLogicEvent Any W) :=
  match l with
  | [] => None
  | _ => Some {| eventName := name; eventParameters := None;
                 eventInstructions := Some l |}
  end.

(** The entry that [addInstructionToEvent(instruction, name)] stores, given
    the entry [o] found under [name] beforehand; none when the call raises. *)
Definition pushed (instruction : BusinessLogicInstruction Any W) (name : string)
    (o : option (BusinessLogicEvent Any W)) : option (BusinessLogicEvent Any W) :=
  match o with
  | None =>
      Some {| eventName := name; eventParameters := None;
              eventInstructions := Some [instruction] |}
  | Some r =>
      match eventInstructions r with
      | Some previous =>
          Some {| eventName := eventName r; eventParameters := eventParameters r;
                  eventInstructions := Some (previous ++ [instruction]) |}
      | None => None
      end
  end.

(** The instruction list registered under [name]: empty for a name without
    entry, none for an entry whose list is [undefined]. *)
Definition instructions_under (rt : Runtime Any W) (name : string)
  : option (list (BusinessLogicInstruction Any W)) :=
  match _businessLogicEvents (service rt) !! name with
  | None => Some []
  | Some r => eventInstructions r
  end.

(** The call of [instruction] that a firing with arguments [args] makes in
    application state [w]. *)
Definition call_of (instruction : BusinessLogicInstruction Any W)
    (args : option (list Any)) (w : W) : Invocation Any W :=
  {| invoked := instruction; received := args; outcome := (instruction args w).1 |}.

End Programs.

(** ** A concrete application

    The scenario of the README: routing to page X. The application's state is
    the list of actions taken so far; the first argument of a firing is the
    number of days the user has been logged in. *)
Module RouteX.

Definition App : Type := list string.

Definition isOver14Days : BusinessLogicInstruction nat App :=
  λ args app,
    match args with
    | Some (days :: _) =>
        if 14 <? days then (true, app ++ ["log out and reload"%string])
        else (false, app)
    | _ => (false, app)
    end.

Definition isLoggedOut : BusinessLogicInstruction nat App :=
  λ args app,
    match args with
    | Some (0 :: _) | Some [] | None => (true, app ++ ["redirect to sign-in"%string])
    | Some (S _ :: _) => (false, app)
    end.

Definition isFirstLogin : BusinessLogicInstruction nat App :=
  λ _ app, (false, app).

Definition fresh : Runtime nat App :=
  {| service := new_BusinessLogicCentralService; world := []; invocations := [] |}.

Definition wired : Runtime nat App :=
  run_operations
    [Register isOver14Days "routeX"%string;
     Register isLoggedOut "routeX"%string;
     Register isFirstLogin "routeX"%string] fresh.

Definition routeX (days : nat) : BusinessLogicEvent nat App :=
  {| eventName := "routeX"; eventParameters := Some [days]; eventInstructions := None |}.

Definition unregisteredX (days : nat) : BusinessLogicEvent nat App :=
  {| eventName := "unregisteredX"; eventParameters := Some [days];
     eventInstructions := None |}.

(** The registration that [wired] holds for page X. *)
Definition registered : BusinessLogicEvent nat App :=
  {| eventName := "routeX"; eventParameters := None;
     eventInstructions := Some [isOver14Days; isLoggedOut; isFirstLogin] |}.

(** A registry holding a registration that carries no instruction. *)
Definition hollow : Runtime nat App :=
  with_registration fresh "routeX"
    {| eventName := "routeX"; eventParameters := None; eventInstructions := Some [] |}.

End RouteX.

(** A second application: the page-X instructions wired by a program, and an
    event that carries the name under which an event object is looked up by
    the compiled JavaScript method. *)
Module PageY.

Import RouteX.

Definition wiring : list (@Operation nat App) :=
  [Register isOver14Days "routeX"%string;
   Fire (routeX 3);
   Register isLoggedOut "routeX"%string;
   Register isFirstLogin "routeY"%string].

Definition objectEvent (days : nat) : BusinessLogicEvent nat App :=
  {| eventName := "[object Object]"; eventParameters := Some [days];
     eventInstructions := None |}.

Definition objectWired : Runtime nat App :=
  run_operations [Register isLoggedOut "[object Object]"%string] fresh.

End PageY.

(** A third application: an instruction registered under the event name
    hasOwnProperty. *)
Module Shadowed.

Import RouteX.

Definition shadowEvent (days : nat) : BusinessLogicEvent nat App :=
  {| eventName := "hasOwnProperty"; eventParameters := Some [days];
     eventInstructions := None |}.

(** Page X wired with one instruction, then one registration under the name
    hasOwnProperty. *)
Definition shadowed : Runtime nat App :=
  run_operations
    [Register isOver14Days "routeX"%string;
     Register isLoggedOut "hasOwnProperty"%string] fresh.


End Shadowed.

(** ** Facts *)

Section Facts.

Context {Any W : Type}.

Abbreviation Instruction := (BusinessLogicInstruction Any W).
Abbreviation Event := (BusinessLogicEvent Any W).
Abbreviation events rt := (_businessLogicEvents (service rt)).

Implicit Types (rt : Runtime Any W) (event : Event) (name key : string).
Implicit Types (instruction : Instruction) (instructions : list Instruction).
Implicit Types (calls : list (Invocation Any W)) (args : option (list Any)).

Ltac js_unfold :=
  unfold js_bind, js_ret, js_throw, hasOwnProperty, getRegistration,
    getEventInstructions, asArray, setRegistration; cbn beta.

(** Runs the leading steps of a method, given the equations [Hm] (no entry
    under the name of the method), [H] (the lookup of the name) and [H'] (the
    instruction list found there). *)
Ltac js_run Hm H H' :=
  repeat (progress (js_unfold; simpl; rewrite ?Hm, ?H, ?H'; simpl)).

(** *** The monad *)

Lemma js_bind_Normal {A B} (m : Js Any W A) (k : A → Js Any W B) rt a rt' :
  m rt = (Normal a, rt') → js_bind m k rt = k a rt'.
Proof. unfold js_bind. by intros ->. Qed.

Lemma js_bind_Throw {A B} (m : Js Any W A) (k : A → Js Any W B) rt e rt' :
  m rt = (Throw e, rt') → js_bind m k rt = (Throw e, rt').
Proof. unfold js_bind. by intros ->. Qed.

Lemma after_calls_nil rt : after_calls rt (world rt) [] = rt.
Proof. destruct rt. unfold after_calls. simpl. by rewrite app_nil_r. Qed.

Lemma after_calls_app rt w1 w2 calls1 calls2 :
  after_calls (after_calls rt w1 calls1) w2 calls2 = after_calls rt w2 (calls1 ++ calls2).
Proof. unfold after_calls. simpl. by rewrite app_assoc. Qed.

(** *** One call *)

Lemma applyInstruction_eq event instruction rt :
  applyInstruction event instruction rt =
    (Normal (if (instruction (eventParameters event) (world rt)).1 then Break else Continue),
     after_calls rt (instruction (eventParameters event) (world rt)).2
       [{| invoked := instruction; received := eventParameters event;
           outcome := (instruction (eventParameters event) (world rt)).1 |}]).
Proof.
  unfold applyInstruction, call, js_bind, js_ret, after_calls.
  by destruct (instruction (eventParameters event) (world rt)) as [[] w].
Qed.

(** *** The loops *)

Lemma for_of_run event instructions rt :
  ∃ calls w,
    for_of instructions (applyInstruction event) rt = (Normal (), after_calls rt w calls) ∧
    short_circuit_run (eventParameters event) instructions (world rt) calls w.
Proof.
  revert rt. induction instructions as [|i rest IH]; intros rt.
  - exists [], (world rt). split; [|constructor].
    simpl. unfold js_ret. by rewrite after_calls_nil.
  - simpl. unfold js_bind at 1. rewrite applyInstruction_eq.
    destruct (i (eventParameters event) (world rt)) as [[] w1] eqn:Hi; simpl.
    + eexists _, w1. split; [reflexivity|]. by constructor.
    + destruct (IH (after_calls rt w1
        [{| invoked := i; received := eventParameters event; outcome := false |}]))
        as (calls & w & Hrun & Hspec).
      eexists _, w. split.
      * rewrite Hrun. by rewrite after_calls_app.
      * simpl. econstructor; eauto.
Qed.

Lemma for_index_for_of {A} (body : A → Js Any W LoopControl) (xs : list A) n i rt :
  length xs ≤ n + i →
  for_index n i xs body rt = for_of (drop i xs) body rt.
Proof.
  revert i rt. induction n as [|n IH]; intros i rt Hn.
  - simpl in Hn. rewrite drop_ge by lia. done.
  - simpl. case_bool_decide as Hi.
    + destruct (lookup_lt_is_Some_2 xs i Hi) as [x Hx].
      rewrite Hx. rewrite (drop_S _ _ _ Hx). simpl.
      unfold js_bind. destruct (body x rt) as [[[]|] rt']; try done.
      apply IH. lia.
    + rewrite drop_ge by lia. done.
Qed.

(** *** Consequences of a run *)

Lemma short_circuit_run_prefix args instructions w calls w' :
  short_circuit_run args instructions w calls w' →
  invoked <$> calls = take (length calls) instructions.
Proof. induction 1; simpl; by f_equal. Qed.

Lemma short_circuit_run_received args instructions w calls w' :
  short_circuit_run args instructions w calls w' →
  Forall (λ c, received c = args) calls.
Proof. induction 1; repeat constructor; done. Qed.

Lemma short_circuit_run_nonempty args instructions w calls w' :
  short_circuit_run args instructions w calls w' →
  instructions ≠ [] → 0 < length calls.
Proof. destruct 1; simpl; intros; (done || lia). Qed.

Lemma short_circuit_run_true_last args instructions w calls w' :
  short_circuit_run args instructions w calls w' →
  ∀ j c, calls !! j = Some c → outcome c = true → S j = length calls.
Proof.
  induction 1 as [|i rest w w' Hi|i rest w w1 calls w' Hi Hrun IH]; intros j c Hj Hc.
  - done.
  - destruct j; simpl in *; [done|]. by rewrite lookup_nil in Hj.
  - destruct j; simpl in *.
    + by simplify_eq.
    + f_equal. eauto.
Qed.

Lemma short_circuit_run_stopped args instructions w calls w' :
  short_circuit_run args instructions w calls w' →
  length calls < length instructions →
  ∃ c, last calls = Some c ∧ outcome c = true.
Proof.
  induction 1 as [|i rest w w' Hi|i rest w w1 calls w' Hi Hrun IH]; simpl; intros Hlen.
  - lia.
  - eauto.
  - destruct IH as (c & Hc & Htrue); [lia|].
    exists c. split; [|done].
    destruct calls; [done|]. done.
Qed.

Lemma short_circuit_run_length args instructions w calls w' :
  short_circuit_run args instructions w calls w' →
  length calls ≤ length instructions.
Proof. induction 1; simpl; lia. Qed.

(** *** The membership test *)

Lemma method_intact_dec (s : BusinessLogicCentralService Any W) :
  method_intact s ∨ is_Some (_businessLogicEvents s !! "hasOwnProperty"%string).
Proof.
  unfold method_intact.
  destruct (_businessLogicEvents s !! "hasOwnProperty"%string); eauto.
Qed.

Lemma hasOwnProperty_intact rt key :
  method_intact (service rt) →
  hasOwnProperty key rt = (Normal (bool_decide (is_Some (events rt !! key))), rt).
Proof. unfold hasOwnProperty, method_intact. by intros ->. Qed.

Lemma hasOwnProperty_shadowed rt key :
  is_Some (events rt !! "hasOwnProperty"%string) →
  hasOwnProperty key rt = (Throw TypeError, rt).
Proof. unfold hasOwnProperty. by intros [r ->]. Qed.

(** *** Firing, case by case *)

Lemma doEvent_shadowed rt event :
  is_Some (events rt !! "hasOwnProperty"%string) →
  doEvent event rt = (Throw TypeError, rt).
Proof.
  intros Hshadow. unfold doEvent.
  by rewrite (js_bind_Throw _ _ _ _ _ (hasOwnProperty_shadowed _ _ Hshadow)).
Qed.

Lemma doEvent_unknown rt event :
  method_intact (service rt) →
  events rt !! eventName event = None →
  doEvent event rt = (Normal false, rt).
Proof.
  intros Hintact Hnone. unfold doEvent.
  rewrite (js_bind_Normal _ _ _ _ _ (hasOwnProperty_intact _ _ Hintact)).
  rewrite Hnone. rewrite bool_decide_eq_false_2; [done|]. by intros [? ?].
Qed.

Lemma doEvent_known rt event registration :
  method_intact (service rt) →
  events rt !! eventName event = Some registration →
  doEvent event rt =
    match eventInstructions registration with
    | None => (Throw TypeError, rt)
    | Some [] => (Normal false, rt)
    | Some (i :: rest) =>
        js_bind (for_of (i :: rest) (applyInstruction event)) (λ _, js_ret true) rt
    end.
Proof.
  intros Hintact Hsome. unfold doEvent.
  rewrite (js_bind_Normal _ _ _ _ _ (hasOwnProperty_intact _ _ Hintact)).
  rewrite Hsome. rewrite bool_decide_eq_true_2 by eauto.
  destruct (eventInstructions registration) as [[|i rest]|] eqn:Hlist;
    js_run Hintact Hsome Hlist; done.
Qed.

Lemma doEvent_fires rt event registration instructions :
  method_intact (service rt) →
  events rt !! eventName event = Some registration →
  eventInstructions registration = Some instructions →
  instructions ≠ [] →
  ∃ calls w,
    doEvent event rt = (Normal true, after_calls rt w calls) ∧
    short_circuit_run (eventParameters event) instructions (world rt) calls w.
Proof.
  intros Hintact Hsome Hlist Hne. rewrite (doEvent_known _ _ _ Hintact Hsome), Hlist.
  destruct instructions as [|i rest]; [done|].
  destruct (for_of_run event (i :: rest) rt) as (calls & w & Hrun & Hspec).
  exists calls, w. split; [|done].
  by rewrite (js_bind_Normal _ _ _ _ _ Hrun).
Qed.

Lemma doEvent_effect rt event :
  ∃ calls w,
    (doEvent event rt).2 = after_calls rt w calls ∧
    Forall (λ c, received c = eventParameters event) calls.
Proof.
  destruct (method_intact_dec (service rt)) as [Hintact|Hshadow]; last first.
  { exists [], (world rt). rewrite (doEvent_shadowed _ _ Hshadow).
    by rewrite after_calls_nil. }
  destruct (events rt !! eventName event) as [registration|] eqn:Hlookup.
  - destruct (eventInstructions registration) as [[|i rest]|] eqn:Hlist.
    + exists [], (world rt). rewrite (doEvent_known _ _ _ Hintact Hlookup), Hlist.
      by rewrite after_calls_nil.
    + destruct (doEvent_fires rt event registration (i :: rest))
        as (calls & w & -> & Hspec); try done.
      exists calls, w. split; [done|].
      by eapply short_circuit_run_received.
    + exists [], (world rt). rewrite (doEvent_known _ _ _ Hintact Hlookup), Hlist.
      by rewrite after_calls_nil.
  - exists [], (world rt). rewrite (doEvent_unknown _ _ Hintact Hlookup).
    by rewrite after_calls_nil.
Qed.

(** *** Registering, case by case *)

Lemma _initializeEvent_shadowed rt name :
  is_Some (events rt !! "hasOwnProperty"%string) →
  _initializeEvent name rt = (Throw TypeError, rt).
Proof.
  intros Hshadow. unfold _initializeEvent.
  by rewrite (js_bind_Throw _ _ _ _ _ (hasOwnProperty_shadowed _ _ Hshadow)).
Qed.

Lemma _initializeEvent_absent rt name :
  method_intact (service rt) →
  events rt !! name = None →
  _initializeEvent name rt =
    (Normal (), with_registration rt name
       {| eventName := name; eventParameters := None; eventInstructions := Some [] |}).
Proof.
  intros Hintact Hnone. unfold _initializeEvent.
  rewrite (js_bind_Normal _ _ _ _ _ (hasOwnProperty_intact _ _ Hintact)).
  rewrite Hnone. rewrite bool_decide_eq_false_2; [done|]. by intros [? ?].
Qed.

Lemma _initializeEvent_present rt name :
  method_intact (service rt) →
  is_Some (events rt !! name) →
  _initializeEvent name rt = (Normal (), rt).
Proof.
  intros Hintact Hsome. unfold _initializeEvent.
  rewrite (js_bind_Normal _ _ _ _ _ (hasOwnProperty_intact _ _ Hintact)).
  by rewrite bool_decide_eq_true_2.
Qed.

Lemma addInstructionToEvent_shadowed rt instruction name :
  is_Some (events rt !! "hasOwnProperty"%string) →
  addInstructionToEvent instruction name rt = (Throw TypeError, rt).
Proof.
  intros Hshadow. unfold addInstructionToEvent.
  by rewrite (js_bind_Throw _ _ _ _ _ (hasOwnProperty_shadowed _ _ Hshadow)).
Qed.

Lemma addInstructionToEvent_absent rt instruction name :
  method_intact (service rt) →
  events rt !! name = None →
  addInstructionToEvent instruction name rt =
    (Normal (), with_registration rt name
       {| eventName := name; eventParameters := None;
          eventInstructions := Some [instruction] |}).
Proof.
  intros Hintact Hnone. unfold addInstructionToEvent.
  rewrite (js_bind_Normal _ _ _ _ _ (hasOwnProperty_intact _ _ Hintact)).
  rewrite Hnone. rewrite bool_decide_eq_false_2 by (by intros [? ?]). simpl.
  unfold js_bind at 1. rewrite (_initializeEvent_absent _ _ Hintact Hnone).
  js_unfold. unfold with_registration. simpl.
  rewrite lookup_insert_eq. simpl. by rewrite insert_insert_eq.
Qed.

Lemma addInstructionToEvent_present rt instruction name registration :
  method_intact (service rt) →
  events rt !! name = Some registration →
  addInstructionToEvent instruction name rt =
    match eventInstructions registration with
    | Some previous =>
        (Normal (), with_registration rt name
           {| eventName := eventName registration;
              eventParameters := eventParameters registration;
              eventInstructions := Some (previous ++ [instruction]) |})
    | None => (Throw TypeError, rt)
    end.
Proof.
  intros Hintact Hsome. unfold addInstructionToEvent.
  rewrite (js_bind_Normal _ _ _ _ _ (hasOwnProperty_intact _ _ Hintact)).
  rewrite Hsome. rewrite bool_decide_eq_true_2 by eauto.
  destruct (eventInstructions registration) as [previous|] eqn:Hlist;
    js_run Hintact Hsome Hlist; done.
Qed.

Lemma addInstructionToEvent_other rt instruction name key :
  key ≠ name →
  events (addInstructionToEvent instruction name rt).2 !! key = events rt !! key.
Proof.
  intros Hne.
  destruct (method_intact_dec (service rt)) as [Hintact|Hshadow]; last first.
  { by rewrite (addInstructionToEvent_shadowed _ _ _ Hshadow). }
  destruct (events rt !! name) as [registration|] eqn:Hlookup.
  - rewrite (addInstructionToEvent_present _ _ _ _ Hintact Hlookup).
    destruct (eventInstructions registration); [|done].
    simpl. by rewrite lookup_insert_ne.
  - rewrite (addInstructionToEvent_absent _ _ _ Hintact Hlookup).
    simpl. by rewrite lookup_insert_ne.
Qed.

(** *** The invariant, operation by operation *)

Lemma registry_invariant_new :
  registry_invariant (@new_BusinessLogicCentralService Any W).
Proof. intros key registration. simpl. by rewrite lookup_empty. Qed.

Lemma addInstructionToEvent_invariant rt instruction name :
  registry_invariant (service rt) →
  registry_invariant (service (addInstructionToEvent instruction name rt).2).
Proof.
  intros Hinv.
  destruct (method_intact_dec (service rt)) as [Hintact|Hshadow]; last first.
  { by rewrite (addInstructionToEvent_shadowed _ _ _ Hshadow). }
  intros key registration.
  destruct (decide (key = name)) as [->|Hne].
  - destruct (events rt !! name) as [r|] eqn:Hlookup.
    + rewrite (addInstructionToEvent_present _ _ _ _ Hintact Hlookup).
      destruct (eventInstructions r) as [previous|] eqn:Hlist; simpl.
      * rewrite lookup_insert_eq. intros [= <-]. simpl.
        split; [|eauto]. by apply (Hinv name r).
      * intros Hr. by apply Hinv.
    + rewrite (addInstructionToEvent_absent _ _ _ Hintact Hlookup). simpl.
      rewrite lookup_insert_eq. intros [= <-]. simpl. eauto.
  - rewrite addInstructionToEvent_other by done. apply Hinv.
Qed.

Lemma doEvent_service rt event :
  service (doEvent event rt).2 = service rt.
Proof. by destruct (doEvent_effect rt event) as (calls & w & -> & _). Qed.



(** *** The compiled JavaScript method *)

#[local] Arguments for_index : simpl never.

Lemma executeInstructionsForEvent_shadowed rt event :
  is_Some (events rt !! "hasOwnProperty"%string) →
  executeInstructionsForEvent event rt = (Throw TypeError, rt).
Proof.
  intros Hshadow. unfold executeInstructionsForEvent.
  by rewrite (js_bind_Throw _ _ _ _ _ (hasOwnProperty_shadowed _ _ Hshadow)).
Qed.

Lemma executeInstructionsForEvent_unknown rt event :
  method_intact (service rt) →
  events rt !! eventName event = None →
  executeInstructionsForEvent event rt = (Normal false, rt).
Proof.
  intros Hintact Hnone. unfold executeInstructionsForEvent.
  rewrite (js_bind_Normal _ _ _ _ _ (hasOwnProperty_intact _ _ Hintact)).
  rewrite Hnone. rewrite bool_decide_eq_false_2; [done|]. by intros [? ?].
Qed.

Lemma executeInstructionsForEvent_known rt event r :
  method_intact (service rt) →
  events rt !! eventName event = Some r →
  executeInstructionsForEvent event rt =
    match events rt !! toPropertyKey event with
    | None => (Throw TypeError, rt)
    | Some keyed =>
        match eventInstructions keyed with
        | None => (Throw TypeError, rt)
        | Some [] => (Normal false, rt)
        | Some (_ :: _) =>
            match eventInstructions r with
            | None => (Throw TypeError, rt)
            | Some l => js_bind (for_of l (applyInstruction event)) (λ _, js_ret true) rt
            end
        end
    end.
Proof.
  intros Hintact Hr. unfold executeInstructionsForEvent.
  rewrite (js_bind_Normal _ _ _ _ _ (hasOwnProperty_intact _ _ Hintact)).
  rewrite Hr. rewrite bool_decide_eq_true_2 by eauto.
  destruct (events rt !! toPropertyKey event) as [keyed|] eqn:Hkey;
    [|by js_run Hintact Hr Hkey].
  destruct (eventInstructions keyed) as [[|i rest]|] eqn:Hkeyed;
    destruct (eventInstructions r) as [l|] eqn:Hlist;
    repeat (progress
      (js_unfold; simpl; rewrite ?Hr, ?Hkey, ?Hkeyed, ?Hlist; simpl));
    try done.
  rewrite for_index_for_of by (simpl; lia). by rewrite drop_0.
Qed.

Lemma executeInstructionsForEvent_unkeyed rt event :
  method_intact (service rt) →
  is_Some (events rt !! eventName event) →
  events rt !! toPropertyKey event = None →
  executeInstructionsForEvent event rt = (Throw TypeError, rt).
Proof.
  intros Hintact [r Hr] Hnone.
  by rewrite (executeInstructionsForEvent_known _ _ _ Hintact Hr), Hnone.
Qed.

Lemma executeInstructionsForEvent_keyed rt event registration keyed i rest :
  events rt !! eventName event = Some registration →
  eventInstructions registration ≠ Some [] →
  events rt !! toPropertyKey event = Some keyed →
  eventInstructions keyed = Some (i :: rest) →
  executeInstructionsForEvent event rt = doEvent event rt.
Proof.
  intros Hsome Hne Hkey Hkeyed.
  destruct (method_intact_dec (service rt)) as [Hintact|Hshadow]; last first.
  { by rewrite (executeInstructionsForEvent_shadowed _ _ Hshadow),
      (doEvent_shadowed _ _ Hshadow). }
  rewrite (executeInstructionsForEvent_known _ _ _ Hintact Hsome),
    (doEvent_known _ _ _ Hintact Hsome), Hkey, Hkeyed.
  by destruct (eventInstructions registration) as [[|i' rest']|].
Qed.

(** ** The claims *)

(** X15. On a registry whose [hasOwnProperty] method is intact: when a
    registration exists for the fired event's name and carries a non-empty
    instruction list, [doEvent] calls exactly a non-empty prefix of that
    list, in registration order and each position once: the calls are a
    short-circuit run of the list, every call answering [true] is the last
    one, and when the prefix is shorter than the list its last call answered
    [true]. Nothing after the first instruction answering [true] is called. *)
Theorem doEvent_invokes_prefix_through_first_true
    rt event registration instructions :
  method_intact (service rt) →
  events rt !! eventName event = Some registration →
  eventInstructions registration = Some instructions →
  instructions ≠ [] →
  ∃ calls w,
    (doEvent event rt).2 = after_calls rt w calls ∧
    short_circuit_run (eventParameters event) instructions (world rt) calls w ∧
    invoked <$> calls = take (length calls) instructions ∧
    0 < length calls ≤ length instructions ∧
    (∀ j c, calls !! j = Some c → outcome c = true → S j = length calls) ∧
    (length calls < length instructions →
       ∃ c, last calls = Some c ∧ outcome c = true).
Proof.
  intros Hintact Hsome Hlist Hne.
  destruct (doEvent_fires rt event registration instructions Hintact Hsome Hlist Hne)
    as (calls & w & Hrun & Hspec).
  exists calls, w. rewrite Hrun. split; [done|]. split; [done|].
  split; [by eapply short_circuit_run_prefix|].
  split; [split|split].
  - by eapply short_circuit_run_nonempty.
  - by eapply short_circuit_run_length.
  - by eapply short_circuit_run_true_last.
  - by eapply short_circuit_run_stopped.
Qed.

(** X16. On a registry whose [hasOwnProperty] method is intact: when no
    registration exists for the fired event's name, whatever the parameters,
    [doEvent] returns [false] and calls no instruction: the runtime is left
    as it was. *)
Theorem doEvent_unregistered rt event :
  method_intact (service rt) →
  events rt !! eventName event = None →
  doEvent event rt = (Normal false, rt).
Proof. apply doEvent_unknown. Qed.

(** X17. On a registry whose [hasOwnProperty] method is intact: when a
    registration exists for the fired event's name and its instruction list
    is empty, [doEvent] returns [false] and calls no instruction. *)
Theorem doEvent_empty_registration rt event registration :
  method_intact (service rt) →
  events rt !! eventName event = Some registration →
  eventInstructions registration = Some [] →
  doEvent event rt = (Normal false, rt).
Proof.
  intros Hintact Hsome Hlist.
  by rewrite (doEvent_known _ _ _ Hintact Hsome), Hlist.
Qed.

(** X18. On a registry whose [hasOwnProperty] method is intact: when a
    registration exists for the fired event's name and carries a non-empty
    instruction list, [doEvent] returns [true], whether the iteration
    stopped at an instruction answering [true] or every instruction answered
    [false]. *)
Theorem doEvent_returns_true rt event registration instructions :
  method_intact (service rt) →
  events rt !! eventName event = Some registration →
  eventInstructions registration = Some instructions →
  instructions ≠ [] →
  (doEvent event rt).1 = Normal true.
Proof.
  intros Hintact Hsome Hlist Hne.
  by destruct (doEvent_fires rt event registration instructions
                 Hintact Hsome Hlist Hne) as (calls & w & -> & _).
Qed.

(** X19. [addInstructionToEvent] on a registry whose [hasOwnProperty] method
    is intact: when no registration exists for the name, [_initializeEvent]
    creates one with an empty instruction list and the instruction is
    appended to it; when one exists, the instruction is appended at the end
    of its list, the earlier instructions staying in place and in order. In
    both cases the call completes normally with no value, whether or not the
    instruction or the name was registered before. *)
Theorem addInstructionToEvent_appends rt instruction name :
  method_intact (service rt) →
  (events rt !! name = None →
     _initializeEvent name rt =
       (Normal (), with_registration rt name
          {| eventName := name; eventParameters := None;
             eventInstructions := Some [] |}) ∧
     addInstructionToEvent instruction name rt =
       (Normal (), with_registration rt name
          {| eventName := name; eventParameters := None;
             eventInstructions := Some ([] ++ [instruction]) |})) ∧
  (∀ registration previous,
     events rt !! name = Some registration →
     eventInstructions registration = Some previous →
     addInstructionToEvent instruction name rt =
       (Normal (), with_registration rt name
          {| eventName := eventName registration;
             eventParameters := eventParameters registration;
             eventInstructions := Some (previous ++ [instruction]) |})).
Proof.
  intros Hintact. split.
  - intros Hnone. split.
    + by apply _initializeEvent_absent.
    + by apply addInstructionToEvent_absent.
  - intros registration previous Hsome Hlist.
    by rewrite (addInstructionToEvent_present _ _ _ _ Hintact Hsome), Hlist.
Qed.


(** C8. [doEvent] leaves the service as it was: the same registered names and
    the same registrations, whatever the instructions answer. *)
Theorem doEvent_preserves_registry rt event :
  service (doEvent event rt).2 = service rt ∧
  (∀ key, events (doEvent event rt).2 !! key = events rt !! key) ∧
  dom (events (doEvent event rt).2) = dom (events rt).
Proof. by rewrite doEvent_service. Qed.

(** C9. The registry invariant (each registration is stored under its own
    [eventName] and has a defined instruction list) holds of the service
    just constructed and is preserved by [addInstructionToEvent] and by
    [doEvent]. *)
Theorem registry_invariant_preserved :
  registry_invariant (@new_BusinessLogicCentralService Any W) ∧
  (∀ rt instruction name,
     registry_invariant (service rt) →
     registry_invariant (service (addInstructionToEvent instruction name rt).2)) ∧
  (∀ rt event,
     registry_invariant (service rt) →
     registry_invariant (service (doEvent event rt).2)).
Proof.
  split; [apply registry_invariant_new|]. split.
  - intros rt instruction name. apply addInstructionToEvent_invariant.
  - intros rt event Hinv. by rewrite doEvent_service.
Qed.

(** C10. [addInstructionToEvent(instruction, n)] changes at most the entry
    for [n]: the registration stored under any other name is the same before
    and after the call. *)
Theorem addInstructionToEvent_frame rt instruction name other :
  other ≠ name →
  events (addInstructionToEvent instruction name rt).2 !! other = events rt !! other.
Proof. apply addInstructionToEvent_other. Qed.

End Facts.

(** ** The claims on the page-X application *)

Import RouteX.

(** Registering in the order A, B and later C yields the list A, B, C. *)
Example wired_order :
  _businessLogicEvents (service wired) !! "routeX"%string = Some registered.
Proof. vm_compute. reflexivity. Qed.

(** Logged in for 20 days: only [isOver14Days] is called. *)
Example doEvent_routeX_20 :
  doEvent (routeX 20) wired =
    (Normal true,
     after_calls wired ["log out and reload"%string]
       [{| invoked := isOver14Days; received := Some [20]; outcome := true |}]).
Proof. vm_compute. reflexivity. Qed.

(** Logged in for 3 days: all three are called, none applies. *)
Example doEvent_routeX_3 :
  doEvent (routeX 3) wired =
    (Normal true,
     after_calls wired []
       [{| invoked := isOver14Days; received := Some [3]; outcome := false |};
        {| invoked := isLoggedOut; received := Some [3]; outcome := false |};
        {| invoked := isFirstLogin; received := Some [3]; outcome := false |}]).
Proof. vm_compute. reflexivity. Qed.

(** Logged out: [isOver14Days] then [isLoggedOut], never [isFirstLogin]. *)
Example doEvent_routeX_0 :
  doEvent (routeX 0) wired =
    (Normal true,
     after_calls wired ["redirect to sign-in"%string]
       [{| invoked := isOver14Days; received := Some [0]; outcome := false |};
        {| invoked := isLoggedOut; received := Some [0]; outcome := true |}]).
Proof. vm_compute. reflexivity. Qed.

Lemma doEvent_invokes_prefix_through_first_true_witness :
  ∃ calls w,
    (doEvent (routeX 0) wired).2 = after_calls wired w calls ∧
    short_circuit_run (Some [0])
      [isOver14Days; isLoggedOut; isFirstLogin] [] calls w ∧
    invoked <$> calls =
      take (length calls) [isOver14Days; isLoggedOut; isFirstLogin] ∧
    0 < length calls ≤ 3 ∧
    (∀ j c, calls !! j = Some c → outcome c = true → S j = length calls) ∧
    (length calls < 3 → ∃ c, last calls = Some c ∧ outcome c = true).
Proof.
  apply (doEvent_invokes_prefix_through_first_true wired (routeX 0) registered
           [isOver14Days; isLoggedOut; isFirstLogin]).
  - vm_compute. reflexivity.
  - vm_compute. reflexivity.
  - reflexivity.
  - discriminate.
Defined.

Lemma doEvent_unregistered_witness :
  _businessLogicEvents (service wired) !! "unregisteredX"%string = None ∧
  doEvent (unregisteredX 3) wired = (Normal false, wired).
Proof.
  split; [vm_compute; reflexivity|].
  apply (doEvent_unregistered wired (unregisteredX 3)).
  - vm_compute. reflexivity.
  - vm_compute. reflexivity.
Defined.

Lemma doEvent_empty_registration_witness :
  doEvent (routeX 3) hollow = (Normal false, hollow).
Proof.
  apply (doEvent_empty_registration hollow (routeX 3)
           {| eventName := "routeX"; eventParameters := None;
              eventInstructions := Some [] |}).
  - vm_compute. reflexivity.
  - vm_compute. reflexivity.
  - reflexivity.
Defined.

Lemma doEvent_returns_true_witness :
  (doEvent (routeX 3) wired).1 = Normal true ∧
  (doEvent (routeX 20) wired).1 = Normal true.
Proof.
  split.
  - apply (doEvent_returns_true wired (routeX 3) registered
             [isOver14Days; isLoggedOut; isFirstLogin]);
      [vm_compute; reflexivity | vm_compute; reflexivity | reflexivity
      | discriminate].
  - apply (doEvent_returns_true wired (routeX 20) registered
             [isOver14Days; isLoggedOut; isFirstLogin]);
      [vm_compute; reflexivity | vm_compute; reflexivity | reflexivity
      | discriminate].
Defined.

Lemma addInstructionToEvent_appends_witness :
  addInstructionToEvent isOver14Days "routeX" fresh =
    (Normal (), with_registration fresh "routeX"
       {| eventName := "routeX"; eventParameters := None;
          eventInstructions := Some [isOver14Days] |}) ∧
  addInstructionToEvent isOver14Days "routeX" wired =
    (Normal (), with_registration wired "routeX"
       {| eventName := "routeX"; eventParameters := None;
          eventInstructions :=
            Some [isOver14Days; isLoggedOut; isFirstLogin; isOver14Days] |}).
Proof.
  assert (method_intact (service fresh)) as Hfresh by (vm_compute; reflexivity).
  assert (method_intact (service wired)) as Hwired by (vm_compute; reflexivity).
  split.
  - apply (proj1 (addInstructionToEvent_appends fresh isOver14Days "routeX" Hfresh)).
    vm_compute. reflexivity.
  - apply (proj2 (addInstructionToEvent_appends wired isOver14Days "routeX" Hwired)
             registered [isOver14Days; isLoggedOut; isFirstLogin]).
    + vm_compute. reflexivity.
    + reflexivity.
Defined.

Lemma registry_invariant_preserved_witness :
  registry_invariant (service (addInstructionToEvent isLoggedOut "routeX" fresh).2) ∧
  registry_invariant (service (doEvent (routeX 3) fresh).2).
Proof.
  destruct (@registry_invariant_preserved nat App) as (Hnew & Hadd & Hfire).
  split.
  - apply (Hadd fresh isLoggedOut "routeX"%string). exact Hnew.
  - apply (Hfire fresh (routeX 3)). exact Hnew.
Defined.

Lemma addInstructionToEvent_frame_witness :
  _businessLogicEvents
    (service (addInstructionToEvent isLoggedOut "routeY" wired).2) !! "routeX"%string =
  _businessLogicEvents (service wired) !! "routeX"%string.
Proof.
  apply (addInstructionToEvent_frame wired isLoggedOut "routeY" "routeX").
  discriminate.
Defined.

(** ** The registry with a registration under the name hasOwnProperty *)

Import Shadowed.

(** The registration that [shadowed] holds under the name hasOwnProperty. *)
Example shadowed_entry :
  _businessLogicEvents (service shadowed) !! "hasOwnProperty"%string =
    Some {| eventName := "hasOwnProperty"; eventParameters := None;
            eventInstructions := Some [isLoggedOut] |}.
Proof. vm_compute. reflexivity. Qed.

(** C1. A registration exists under the name hasOwnProperty and carries the
    non-empty list [[isLoggedOut]], yet firing that event calls no
    instruction: [doEvent] raises [TypeError] at its membership test and
    leaves the record of calls empty, where the claim has it call
    [isLoggedOut]. *)
Theorem doEvent_shadowed_registration_not_fired :
  (∃ registration,
     _businessLogicEvents (service shadowed) !! eventName (shadowEvent 0) =
       Some registration ∧
     eventInstructions registration = Some [isLoggedOut]) ∧
  doEvent (shadowEvent 0) shadowed = (Throw TypeError, shadowed) ∧
  invocations (doEvent (shadowEvent 0) shadowed).2 = [].
Proof.
  split; [|split].
  - eexists. split; [apply shadowed_entry|reflexivity].
  - vm_compute. reflexivity.
  - vm_compute. reflexivity.
Qed.

(** C2. No registration exists under the name unregisteredX, yet firing it on
    the registry that holds a registration under hasOwnProperty does not
    return [false]: [doEvent] raises [TypeError]. *)
Theorem doEvent_shadowed_unregistered_raises :
  _businessLogicEvents (service shadowed) !! eventName (unregisteredX 3) = None ∧
  doEvent (unregisteredX 3) shadowed = (Throw TypeError, shadowed) ∧
  (doEvent (unregisteredX 3) shadowed).1 ≠ Normal false.
Proof.
  split; [|split].
  - vm_compute. reflexivity.
  - vm_compute. reflexivity.
  - vm_compute. discriminate.
Qed.


(** C4. The registration of page X exists and carries a non-empty list, yet
    once a registration is stored under the name hasOwnProperty firing page
    X does not return [true]: [doEvent] raises [TypeError] and calls
    nothing. *)
Theorem doEvent_shadowed_does_not_return_true :
  (∃ registration,
     _businessLogicEvents (service shadowed) !! eventName (routeX 20) =
       Some registration ∧
     eventInstructions registration = Some [isOver14Days]) ∧
  doEvent (routeX 20) shadowed = (Throw TypeError, shadowed) ∧
  (doEvent (routeX 20) shadowed).1 ≠ Normal true.
Proof.
  split; [|split].
  - eexists. split; [vm_compute; reflexivity|reflexivity].
  - vm_compute. reflexivity.
  - vm_compute. discriminate.
Qed.

(** C5. Once a registration is stored under the name hasOwnProperty,
    [addInstructionToEvent] raises [TypeError] and appends nothing: for a
    name registered before (page X), for a new name (page Y), and for the
    name hasOwnProperty registered a second time. *)
Theorem addInstructionToEvent_shadowed_raises :
  addInstructionToEvent isLoggedOut "routeX" shadowed = (Throw TypeError, shadowed) ∧
  addInstructionToEvent isLoggedOut "routeY" shadowed = (Throw TypeError, shadowed) ∧
  addInstructionToEvent isLoggedOut "hasOwnProperty" shadowed =
    (Throw TypeError, shadowed) ∧
  _businessLogicEvents (service shadowed) !! "routeX"%string =
    Some {| eventName := "routeX"; eventParameters := None;
            eventInstructions := Some [isOver14Days] |}.
Proof.
  repeat split; vm_compute; reflexivity.
Qed.

(** C7. The compiled JavaScript method [executeInstructionsForEvent] does not
    behave as [doEvent]: on the wired page-X registry, firing [routeX] with
    20 days makes [doEvent] call [isOver14Days] and return [true], while
    [executeInstructionsForEvent] reads the registry under the key
    [toPropertyKey event], finds [undefined] there and raises [TypeError]
    without calling anything. *)
Theorem executeInstructionsForEvent_departs_from_doEvent :
  executeInstructionsForEvent (routeX 20) wired = (Throw TypeError, wired) ∧
  doEvent (routeX 20) wired =
    (Normal true,
     after_calls wired ["log out and reload"%string]
       [{| invoked := isOver14Days; received := Some [20]; outcome := true |}]) ∧
  (executeInstructionsForEvent (routeX 20) wired).1 ≠ (doEvent (routeX 20) wired).1 ∧
  invocations (executeInstructionsForEvent (routeX 20) wired).2 ≠
    invocations (doEvent (routeX 20) wired).2.
Proof.
  assert (executeInstructionsForEvent (routeX 20) wired = (Throw TypeError, wired))
    as Hlegacy.
  { apply executeInstructionsForEvent_unkeyed; vm_compute; eauto. }
  rewrite Hlegacy, doEvent_routeX_20. repeat split; simpl.
  - discriminate.
  - vm_compute. discriminate.
Qed.


(** ** Further facts: how the operations compose *)

Section Composition.

Context {Any W : Type}.

Abbreviation Instruction := (BusinessLogicInstruction Any W).
Abbreviation Event := (BusinessLogicEvent Any W).
Abbreviation events rt := (_businessLogicEvents (service rt)).

Implicit Types (rt : Runtime Any W) (event : Event) (name key : string).
Implicit Types (instruction : Instruction) (instructions : list Instruction).
Implicit Types (calls : list (Invocation Any W)) (args : option (list Any)).
Implicit Types (ops : list (@Operation Any W)).

(** *** Registering, as one equation *)

Lemma addInstructionToEvent_eq rt instruction name :
  method_intact (service rt) →
  addInstructionToEvent instruction name rt =
    match pushed instruction name (events rt !! name) with
    | Some r => (Normal (), with_registration rt name r)
    | None => (Throw TypeError, rt)
    end.
Proof.
  intros Hintact.
  destruct (events rt !! name) as [r|] eqn:Hlookup; simpl.
  - rewrite (addInstructionToEvent_present _ _ _ _ Hintact Hlookup).
    by destruct (eventInstructions r).
  - by apply addInstructionToEvent_absent.
Qed.

Lemma addInstructionToEvent_after_calls rt instruction name w calls :
  addInstructionToEvent instruction name (after_calls rt w calls) =
    ((addInstructionToEvent instruction name rt).1,
     after_calls (addInstructionToEvent instruction name rt).2 w calls).
Proof.
  destruct (method_intact_dec (service rt)) as [Hintact|Hshadow].
  - rewrite !addInstructionToEvent_eq by done. simpl.
    by destruct (pushed instruction name (events rt !! name)).
  - by rewrite !addInstructionToEvent_shadowed.
Qed.

Lemma addInstructionToEvent_world rt instruction name :
  world (addInstructionToEvent instruction name rt).2 = world rt ∧
  invocations (addInstructionToEvent instruction name rt).2 = invocations rt.
Proof.
  destruct (method_intact_dec (service rt)) as [Hintact|Hshadow].
  - rewrite addInstructionToEvent_eq by done.
    by destruct (pushed instruction name (events rt !! name)).
  - by rewrite addInstructionToEvent_shadowed.
Qed.

Lemma addInstructionToEvent_dom rt instruction name :
  method_intact (service rt) →
  dom (events (addInstructionToEvent instruction name rt).2) =
    {[name]} ∪ dom (events rt).
Proof.
  intros Hintact. rewrite addInstructionToEvent_eq by done.
  destruct (events rt !! name) as [r|] eqn:Hr; simpl.
  - assert ({[name]} ∪ dom (events rt) = dom (events rt)) as Hin.
    { apply subseteq_union_1_L, singleton_subseteq_l, elem_of_dom. eauto. }
    destruct (eventInstructions r); simpl; [|done].
    by rewrite dom_insert_L.
  - by rewrite dom_insert_L.
Qed.

Lemma addInstructionToEvent_dom_grows rt instruction name :
  dom (events rt) ⊆ dom (events (addInstructionToEvent instruction name rt).2).
Proof.
  destruct (method_intact_dec (service rt)) as [Hintact|Hshadow].
  - rewrite addInstructionToEvent_dom by done. apply union_subseteq_r.
  - by rewrite addInstructionToEvent_shadowed.
Qed.

(** *** The method stays intact *)

Lemma addInstructionToEvent_intact rt instruction name :
  name ≠ "hasOwnProperty"%string →
  method_intact (service rt) →
  method_intact (service (addInstructionToEvent instruction name rt).2).
Proof.
  intros Hne Hintact. unfold method_intact.
  by rewrite addInstructionToEvent_other.
Qed.

Lemma run_operations_cons op ops rt :
  run_operations (op :: ops) rt = run_operations ops (run_operation op rt).
Proof. done. Qed.

Lemma run_operations_intact ops rt :
  "hasOwnProperty"%string ∉ registered_names ops →
  method_intact (service rt) →
  method_intact (service (run_operations ops rt)).
Proof.
  revert rt. induction ops as [|[instruction n|event] ops IH]; intros rt Hnot Hintact.
  - done.
  - rewrite run_operations_cons. simpl in Hnot. apply not_elem_of_cons in Hnot.
    destruct Hnot as [Hne Hnot]. apply IH; [done|].
    by apply addInstructionToEvent_intact.
  - rewrite run_operations_cons. apply IH; [done|]. simpl.
    by rewrite doEvent_service.
Qed.

Lemma run_operations_shadowed ops rt :
  is_Some (events rt !! "hasOwnProperty"%string) →
  run_operations ops rt = rt.
Proof.
  intros Hshadow. induction ops as [|[instruction n|event] ops IH]; [done|..];
    rewrite run_operations_cons; simpl.
  - by rewrite addInstructionToEvent_shadowed.
  - by rewrite doEvent_shadowed.
Qed.

(** *** Runs are functional *)

Lemma short_circuit_run_deterministic args instructions w calls1 w1 calls2 w2 :
  short_circuit_run args instructions w calls1 w1 →
  short_circuit_run args instructions w calls2 w2 →
  calls1 = calls2 ∧ w1 = w2.
Proof.
  intros Hrun. revert calls2 w2.
  induction Hrun as [w|i rest w w' Hi|i rest w wm calls w' Hi Hrun IH];
    intros calls2 w2 Hrun2; inversion Hrun2 as [|? ? ? ? Hi2|? ? ? wm2 ? ? Hi2 Hrest2];
    subst; try done; try (split; congruence).
  assert (wm2 = wm) as -> by congruence.
  by destruct (IH _ _ Hrest2) as [-> ->].
Qed.

Lemma short_circuit_run_snoc args instructions instruction w calls w' :
  short_circuit_run args instructions w calls w' →
  short_circuit_run args (instructions ++ [instruction]) w
    (if existsb outcome calls then calls
     else calls ++ [call_of instruction args w'])
    (if existsb outcome calls then w' else (instruction args w').2).
Proof.
  induction 1 as [w|i rest w w' Hi|i rest w wm calls w' Hi Hrun IH]; simpl.
  - unfold call_of. destruct (instruction args w) as [[] w2] eqn:Hw; simpl.
    + by constructor.
    + econstructor; [done|constructor].
  - by constructor.
  - destruct (existsb outcome calls); by econstructor.
Qed.

(** *** Firing depends on the entry of the fired name, on the method and on
    the application *)

Lemma doEvent_congruence rt1 rt2 event :
  events rt1 !! "hasOwnProperty"%string = events rt2 !! "hasOwnProperty"%string →
  events rt1 !! eventName event = events rt2 !! eventName event →
  world rt1 = world rt2 →
  ∃ c w calls,
    doEvent event rt1 = (c, after_calls rt1 w calls) ∧
    doEvent event rt2 = (c, after_calls rt2 w calls).
Proof.
  intros Hmethod Hlookup Hworld.
  assert (after_calls rt2 (world rt1) [] = rt2) as Hnil
    by (rewrite Hworld; apply after_calls_nil).
  destruct (method_intact_dec (service rt1)) as [Hintact1|Hshadow1]; last first.
  { assert (is_Some (events rt2 !! "hasOwnProperty"%string)) as Hshadow2
      by (by rewrite <- Hmethod).
    rewrite (doEvent_shadowed _ _ Hshadow1), (doEvent_shadowed _ _ Hshadow2).
    exists (Throw TypeError), (world rt1), []. by rewrite after_calls_nil, Hnil. }
  assert (method_intact (service rt2)) as Hintact2
    by (unfold method_intact; by rewrite <- Hmethod).
  destruct (events rt1 !! eventName event) as [r|] eqn:H1; symmetry in Hlookup.
  - rewrite (doEvent_known _ _ _ Hintact1 H1), (doEvent_known _ _ _ Hintact2 Hlookup).
    destruct (eventInstructions r) as [[|i rest]|] eqn:Hlist.
    + exists (Normal false), (world rt1), []. by rewrite after_calls_nil, Hnil.
    + destruct (for_of_run event (i :: rest) rt1) as (calls1 & w1 & Hrun1 & Hspec1).
      destruct (for_of_run event (i :: rest) rt2) as (calls2 & w2 & Hrun2 & Hspec2).
      rewrite <- Hworld in Hspec2.
      destruct (short_circuit_run_deterministic _ _ _ _ _ _ _ Hspec1 Hspec2)
        as [<- <-].
      exists (Normal true), w1, calls1.
      by rewrite (js_bind_Normal _ _ _ _ _ Hrun1), (js_bind_Normal _ _ _ _ _ Hrun2).
    + exists (Throw TypeError), (world rt1), []. by rewrite after_calls_nil, Hnil.
  - rewrite (doEvent_unknown _ _ Hintact1 H1), (doEvent_unknown _ _ Hintact2 Hlookup).
    exists (Normal false), (world rt1), []. by rewrite after_calls_nil, Hnil.
Qed.

(** Firing as one equation, in terms of the list under the fired name. *)
Lemma doEvent_instructions_under rt event previous :
  method_intact (service rt) →
  instructions_under rt (eventName event) = Some previous →
  ∃ calls w,
    doEvent event rt =
      (Normal (bool_decide (previous ≠ [])), after_calls rt w calls) ∧
    short_circuit_run (eventParameters event) previous (world rt) calls w.
Proof.
  unfold instructions_under. intros Hintact Hunder.
  destruct (events rt !! eventName event) as [r|] eqn:Hr.
  - destruct previous as [|i rest].
    + exists [], (world rt).
      rewrite (doEvent_known _ _ _ Hintact Hr), Hunder, after_calls_nil.
      split; [done|constructor].
    + destruct (doEvent_fires _ event _ (i :: rest) Hintact Hr Hunder)
        as (calls & w & Hrun & Hspec); [done|].
      exists calls, w. by rewrite Hrun.
  - injection Hunder as <-. exists [], (world rt).
    rewrite (doEvent_unknown _ _ Hintact Hr), after_calls_nil.
    split; [done|constructor].
Qed.

(** *** The registry reached by a program *)

Lemma run_operations_present ops rt name r previous :
  method_intact (service rt) →
  "hasOwnProperty"%string ∉ registered_names ops →
  events rt !! name = Some r →
  eventInstructions r = Some previous →
  events (run_operations ops rt) !! name =
    Some {| eventName := eventName r; eventParameters := eventParameters r;
            eventInstructions := Some (previous ++ registered_under name ops) |}.
Proof.
  revert rt r previous.
  induction ops as [|[instruction n|event] ops IH];
    intros rt r previous Hintact Hnot Hr Hlist.
  - simpl. rewrite app_nil_r, Hr. f_equal. destruct r; simpl in *. by subst.
  - rewrite run_operations_cons. simpl in *.
    apply not_elem_of_cons in Hnot. destruct Hnot as [Hne Hnot].
    assert (method_intact (service (addInstructionToEvent instruction n rt).2))
      as Hintact' by (by apply addInstructionToEvent_intact).
    case_decide as Hn.
    + subst n.
      assert (events (addInstructionToEvent instruction name rt).2 !! name =
                Some {| eventName := eventName r;
                        eventParameters := eventParameters r;
                        eventInstructions := Some (previous ++ [instruction]) |})
        as Hnext.
      { rewrite addInstructionToEvent_eq, Hr by done. simpl. rewrite Hlist. simpl.
        apply lookup_insert_eq. }
      rewrite (IH _ _ _ Hintact' Hnot Hnext eq_refl). simpl.
      by rewrite <- app_assoc.
    + apply IH; [done..| |done]. by rewrite addInstructionToEvent_other.
  - rewrite run_operations_cons. simpl in *. apply IH; [|done| |done].
    + by rewrite doEvent_service.
    + by rewrite doEvent_service.
Qed.

Lemma run_operations_absent ops rt name :
  method_intact (service rt) →
  "hasOwnProperty"%string ∉ registered_names ops →
  events rt !! name = None →
  events (run_operations ops rt) !! name =
    registration_of name (registered_under name ops).
Proof.
  revert rt. induction ops as [|[instruction n|event] ops IH];
    intros rt Hintact Hnot Hnone.
  - done.
  - rewrite run_operations_cons. simpl in *.
    apply not_elem_of_cons in Hnot. destruct Hnot as [Hne Hnot].
    assert (method_intact (service (addInstructionToEvent instruction n rt).2))
      as Hintact' by (by apply addInstructionToEvent_intact).
    case_decide as Hn.
    + subst n.
      assert (events (addInstructionToEvent instruction name rt).2 !! name =
                Some {| eventName := name; eventParameters := None;
                        eventInstructions := Some [instruction] |})
        as Hnext.
      { rewrite addInstructionToEvent_eq, Hnone by done. simpl.
        apply lookup_insert_eq. }
      by rewrite (run_operations_present _ _ _ _ _ Hintact' Hnot Hnext eq_refl).
    + apply IH; [done..|]. by rewrite addInstructionToEvent_other.
  - rewrite run_operations_cons. simpl in *. apply IH; [|done|].
    + by rewrite doEvent_service.
    + by rewrite doEvent_service.
Qed.

Lemma run_operations_prefix ops rt name r previous :
  events rt !! name = Some r →
  eventInstructions r = Some previous →
  ∃ added,
    events (run_operations ops rt) !! name =
      Some {| eventName := eventName r; eventParameters := eventParameters r;
              eventInstructions := Some (previous ++ added) |}.
Proof.
  revert rt r previous.
  induction ops as [|[instruction n|event] ops IH]; intros rt r previous Hr Hlist.
  - exists []. simpl. rewrite app_nil_r, Hr. f_equal. destruct r; simpl in *. by subst.
  - rewrite run_operations_cons. simpl.
    destruct (method_intact_dec (service rt)) as [Hintact|Hshadow]; last first.
    { rewrite (addInstructionToEvent_shadowed _ _ _ Hshadow). by apply IH. }
    destruct (decide (n = name)) as [->|Hn].
    + assert (events (addInstructionToEvent instruction name rt).2 !! name =
                Some {| eventName := eventName r;
                        eventParameters := eventParameters r;
                        eventInstructions := Some (previous ++ [instruction]) |})
        as Hnext.
      { rewrite addInstructionToEvent_eq, Hr by done. simpl. rewrite Hlist. simpl.
        apply lookup_insert_eq. }
      destruct (IH _ _ _ Hnext eq_refl) as [added Hadded].
      exists (instruction :: added). rewrite Hadded. simpl.
      by rewrite <- app_assoc.
    + apply IH; [|done]. by rewrite addInstructionToEvent_other.
  - rewrite run_operations_cons. simpl. apply IH; [|done].
    by rewrite doEvent_service.
Qed.

(** *** Properties of the service *)

(** X1. After any program of registrations and firings run on a new service
    that registers nothing under the name hasOwnProperty, the entry under a
    name holds exactly the instructions registered under that name, in the
    order of registration; a name under which nothing was registered has no
    entry, firings notwithstanding. *)
Theorem registry_after_program ops w name :
  "hasOwnProperty"%string ∉ registered_names ops →
  events (run_operations ops (new_runtime w)) !! name =
    registration_of name (registered_under name ops).
Proof.
  intros Hnot. apply run_operations_absent; [|done|]; apply lookup_empty.
Qed.


(** X3. Instruction lists only grow. From any registry in which a name has an
    instruction list, after any program the entry under that name keeps its
    name and its list starts with the earlier list: nothing is removed,
    reordered or reset. When the method [hasOwnProperty] is intact and the
    program registers nothing under that name, what follows the earlier list
    is exactly what the program registers under the name, in order. *)
Theorem instruction_lists_only_grow ops rt name r previous :
  events rt !! name = Some r →
  eventInstructions r = Some previous →
  (∃ added,
     events (run_operations ops rt) !! name =
       Some {| eventName := eventName r; eventParameters := eventParameters r;
               eventInstructions := Some (previous ++ added) |}) ∧
  (method_intact (service rt) →
   "hasOwnProperty"%string ∉ registered_names ops →
   events (run_operations ops rt) !! name =
     Some {| eventName := eventName r; eventParameters := eventParameters r;
             eventInstructions := Some (previous ++ registered_under name ops) |}).
Proof.
  intros Hr Hlist. split.
  - by apply run_operations_prefix.
  - intros Hintact Hnot. by apply run_operations_present.
Qed.


(** X5. Registering calls no instruction and leaves the application alone:
    whatever the registry holds, [addInstructionToEvent] changes neither the
    application's state nor the record of calls nor the service's name. *)
Theorem addInstructionToEvent_invokes_nothing rt instruction name :
  world (addInstructionToEvent instruction name rt).2 = world rt ∧
  invocations (addInstructionToEvent instruction name rt).2 = invocations rt ∧
  _name (service (addInstructionToEvent instruction name rt).2) = _name (service rt).
Proof.
  destruct (method_intact_dec (service rt)) as [Hintact|Hshadow].
  - rewrite addInstructionToEvent_eq by done.
    by destruct (pushed instruction name (events rt !! name)).
  - by rewrite addInstructionToEvent_shadowed.
Qed.

(** X6. Registrations under different names, neither of them the name
    hasOwnProperty, commute: in either order the two calls complete in the
    same way and leave the same runtime. *)
Theorem registrations_commute rt i n j m :
  n ≠ m →
  n ≠ "hasOwnProperty"%string →
  m ≠ "hasOwnProperty"%string →
  (addInstructionToEvent j m (addInstructionToEvent i n rt).2).1 =
    (addInstructionToEvent j m rt).1 ∧
  (addInstructionToEvent i n (addInstructionToEvent j m rt).2).1 =
    (addInstructionToEvent i n rt).1 ∧
  (addInstructionToEvent j m (addInstructionToEvent i n rt).2).2 =
    (addInstructionToEvent i n (addInstructionToEvent j m rt).2).2.
Proof.
  intros Hne Hn Hm.
  destruct (method_intact_dec (service rt)) as [Hintact|Hshadow]; last first.
  { rewrite (addInstructionToEvent_shadowed rt i n Hshadow),
      (addInstructionToEvent_shadowed rt j m Hshadow). simpl.
    by rewrite (addInstructionToEvent_shadowed rt i n Hshadow),
      (addInstructionToEvent_shadowed rt j m Hshadow). }
  rewrite (addInstructionToEvent_eq (addInstructionToEvent i n rt).2 j m)
    by (by apply addInstructionToEvent_intact).
  rewrite (addInstructionToEvent_eq (addInstructionToEvent j m rt).2 i n)
    by (by apply addInstructionToEvent_intact).
  rewrite !addInstructionToEvent_other by done.
  rewrite !addInstructionToEvent_eq by done.
  destruct (pushed i n (events rt !! n)) as [rn|];
    destruct (pushed j m (events rt !! m)) as [rm|]; simpl; try done.
  repeat split. unfold with_registration. simpl.
  do 2 f_equal. by apply insert_insert_ne.
Qed.

(** X7. Firing an event and registering under another name, not the name
    hasOwnProperty, commute: the firing answers the same and makes the same
    calls before or after the registration, the registration completes the
    same before or after the firing, and both orders leave the same
    runtime. *)
Theorem firing_commutes_with_registration rt event instruction name :
  eventName event ≠ name →
  name ≠ "hasOwnProperty"%string →
  (doEvent event (addInstructionToEvent instruction name rt).2).1 =
    (doEvent event rt).1 ∧
  (addInstructionToEvent instruction name (doEvent event rt).2).1 =
    (addInstructionToEvent instruction name rt).1 ∧
  (doEvent event (addInstructionToEvent instruction name rt).2).2 =
    (addInstructionToEvent instruction name (doEvent event rt).2).2.
Proof.
  intros Hne Hname.
  destruct (doEvent_congruence rt (addInstructionToEvent instruction name rt).2 event)
    as (c & w & calls & -> & ->).
  - by rewrite addInstructionToEvent_other.
  - by rewrite addInstructionToEvent_other.
  - by destruct (addInstructionToEvent_world rt instruction name) as [-> _].
  - simpl. by rewrite addInstructionToEvent_after_calls.
Qed.

(** X8. A newly registered instruction has the lowest priority. On a registry
    whose method [hasOwnProperty] is intact, for an event not named
    hasOwnProperty whose name has the instruction list [previous] (empty for
    a name never registered): if firing the event makes the calls [calls],
    then after one more instruction is registered under the event's name the
    same firing makes the same calls, followed by a call of the new
    instruction exactly when none of them answered [true]; and it now
    answers [true]. *)
Theorem new_instruction_has_lowest_priority rt event previous instruction :
  method_intact (service rt) →
  eventName event ≠ "hasOwnProperty"%string →
  instructions_under rt (eventName event) = Some previous →
  ∃ calls w,
    doEvent event rt =
      (Normal (bool_decide (previous ≠ [])), after_calls rt w calls) ∧
    short_circuit_run (eventParameters event) previous (world rt) calls w ∧
    doEvent event (addInstructionToEvent instruction (eventName event) rt).2 =
      (Normal true,
       if existsb outcome calls
       then after_calls (addInstructionToEvent instruction (eventName event) rt).2
              w calls
       else after_calls (addInstructionToEvent instruction (eventName event) rt).2
              (instruction (eventParameters event) w).2
              (calls ++ [call_of instruction (eventParameters event) w])).
Proof.
  intros Hintact Hname Hunder.
  destruct (doEvent_instructions_under _ _ _ Hintact Hunder)
    as (calls & w & Hfire & Hspec).
  exists calls, w. split; [done|]. split; [done|].
  set (rt' := (addInstructionToEvent instruction (eventName event) rt).2).
  assert (method_intact (service rt')) as Hintact'
    by (by apply addInstructionToEvent_intact).
  assert (instructions_under rt' (eventName event) = Some (previous ++ [instruction]))
    as Hunder'.
  { unfold instructions_under, rt' in *.
    rewrite addInstructionToEvent_eq by done.
    destruct (events rt !! eventName event) as [r|] eqn:Hr; simpl.
    - rewrite Hunder. simpl. by rewrite lookup_insert_eq.
    - injection Hunder as <-. by rewrite lookup_insert_eq. }
  destruct (doEvent_instructions_under _ _ _ Hintact' Hunder')
    as (calls' & w' & Hrun' & Hspec').
  assert (world rt' = world rt) as Hworld
    by apply addInstructionToEvent_world.
  rewrite Hworld in Hspec'.
  pose proof (short_circuit_run_snoc _ _ instruction _ _ _ Hspec) as Hsnoc.
  destruct (short_circuit_run_deterministic _ _ _ _ _ _ _ Hspec' Hsnoc) as [-> ->].
  rewrite Hrun'. rewrite bool_decide_eq_true_2 by (by destruct previous).
  by destruct (existsb outcome calls).
Qed.

(** X9. [_initializeEvent] never overwrites: every registration present
    beforehand is found unchanged afterwards, and a second call leaves the
    registry as the first left it. With the method [hasOwnProperty] intact,
    the name is registered afterwards; a second call then completes
    normally unless the name is hasOwnProperty, in which case it raises. *)
Theorem _initializeEvent_keeps_registrations rt name :
  (∀ key, is_Some (events rt !! key) →
     events (_initializeEvent name rt).2 !! key = events rt !! key) ∧
  (_initializeEvent name (_initializeEvent name rt).2).2 =
    (_initializeEvent name rt).2 ∧
  (method_intact (service rt) →
     is_Some (events (_initializeEvent name rt).2 !! name) ∧
     (_initializeEvent name (_initializeEvent name rt).2).1 =
       if decide (name = "hasOwnProperty"%string) then Throw TypeError
       else Normal ()).
Proof.
  destruct (method_intact_dec (service rt)) as [Hintact|Hshadow]; last first.
  { rewrite (_initializeEvent_shadowed _ _ Hshadow). simpl.
    rewrite (_initializeEvent_shadowed _ _ Hshadow).
    split; [done|]. split; [done|].
    intros Hintact. unfold method_intact in Hintact. rewrite Hintact in Hshadow.
    by destruct Hshadow. }
  destruct (events rt !! name) as [r|] eqn:Hr.
  - rewrite (_initializeEvent_present rt name) by eauto. simpl.
    rewrite (_initializeEvent_present rt name) by eauto. simpl.
    split; [done|]. split; [done|]. intros _. rewrite Hr. split; [eauto|].
    case_decide as Hname; [|done].
    subst name. unfold method_intact in Hintact. by rewrite Hintact in Hr.
  - rewrite (_initializeEvent_absent _ _ Hintact Hr). simpl.
    split; [|split].
    + intros key Hkey. rewrite lookup_insert_ne; [done|].
      intros ->. rewrite Hr in Hkey. by destruct Hkey.
    + case (decide (name = "hasOwnProperty"%string)) as [->|Hname].
      * rewrite _initializeEvent_shadowed; [done|].
        simpl. rewrite lookup_insert_eq. eauto.
      * rewrite _initializeEvent_present; [done| |].
        -- unfold method_intact. simpl. by rewrite lookup_insert_ne.
        -- simpl. rewrite lookup_insert_eq. eauto.
    + intros _. split; [rewrite lookup_insert_eq; eauto|].
      case_decide as Hname.
      * subst name. rewrite _initializeEvent_shadowed; [done|].
        simpl. rewrite lookup_insert_eq. eauto.
      * rewrite _initializeEvent_present; [done| |].
        -- unfold method_intact. simpl. by rewrite lookup_insert_ne.
        -- simpl. rewrite lookup_insert_eq. eauto.
Qed.

(** X10. Fired on an event whose name is the key an event object converts
    to, the compiled method [executeInstructionsForEvent] does what [doEvent]
    does, on every registry. *)
Theorem executeInstructionsForEvent_on_object_key rt event :
  eventName event = toPropertyKey event →
  executeInstructionsForEvent event rt = doEvent event rt.
Proof.
  intros Hname.
  destruct (method_intact_dec (service rt)) as [Hintact|Hshadow]; last first.
  { by rewrite (executeInstructionsForEvent_shadowed _ _ Hshadow),
      (doEvent_shadowed _ _ Hshadow). }
  destruct (events rt !! eventName event) as [r|] eqn:Hr.
  - rewrite (executeInstructionsForEvent_known _ _ _ Hintact Hr),
      (doEvent_known _ _ _ Hintact Hr).
    rewrite <- Hname, Hr.
    by destruct (eventInstructions r) as [[|i rest]|].
  - by rewrite (executeInstructionsForEvent_unknown _ _ Hintact Hr),
      (doEvent_unknown _ _ Hintact Hr).
Qed.

(** X11. After any program run on a new service that registers nothing
    under the key an event object converts to, nor under the name
    hasOwnProperty, the compiled method [executeInstructionsForEvent] calls
    no instruction: it answers [false] for a name without registrations and
    raises [TypeError] for every name with registrations, leaving the
    runtime as it was. *)
Theorem executeInstructionsForEvent_after_program ops w event :
  "hasOwnProperty"%string ∉ registered_names ops →
  registered_under (toPropertyKey event) ops = [] →
  executeInstructionsForEvent event (run_operations ops (new_runtime w)) =
    (match registered_under (eventName event) ops with
     | [] => Normal false
     | _ :: _ => Throw TypeError
     end,
     run_operations ops (new_runtime w)).
Proof.
  intros Hnot Hkey.
  assert (method_intact (service (@new_runtime Any W w))) as Hnew
    by apply lookup_empty.
  pose proof (run_operations_intact ops _ Hnot Hnew) as Hintact.
  pose proof (run_operations_absent ops (new_runtime w) (toPropertyKey event)
                Hnew Hnot (lookup_empty _)) as Hnokey.
  rewrite Hkey in Hnokey. simpl in Hnokey.
  pose proof (run_operations_absent ops (new_runtime w) (eventName event)
                Hnew Hnot (lookup_empty _)) as Hlookup.
  destruct (registered_under (eventName event) ops) as [|i rest];
    simpl in Hlookup.
  - by apply executeInstructionsForEvent_unknown.
  - apply executeInstructionsForEvent_unkeyed; [done|eauto|done].
Qed.

(** X13. No entry is ever removed: the names registered before a program are
    registered after it. When the method [hasOwnProperty] is intact and the
    program registers nothing under that name, the names registered after
    the program are those registered before together with the names under
    which the program registers; firing an event creates none. *)
Theorem registered_names_after_program ops rt :
  dom (events rt) ⊆ dom (events (run_operations ops rt)) ∧
  (method_intact (service rt) →
   "hasOwnProperty"%string ∉ registered_names ops →
   dom (events (run_operations ops rt)) =
     dom (events rt) ∪ list_to_set (registered_names ops)).
Proof.
  split.
  - revert rt. induction ops as [|[instruction n|event] ops IH]; intros rt.
    + done.
    + rewrite run_operations_cons. etrans; [|apply IH]. simpl.
      apply addInstructionToEvent_dom_grows.
    + rewrite run_operations_cons. etrans; [|apply IH]. simpl.
      by rewrite doEvent_service.
  - revert rt. induction ops as [|[instruction n|event] ops IH];
      intros rt Hintact Hnot.
    + simpl. by rewrite union_empty_r_L.
    + simpl in Hnot. apply not_elem_of_cons in Hnot. destruct Hnot as [Hne Hnot].
      rewrite run_operations_cons, IH; [|by apply addInstructionToEvent_intact|done].
      simpl. rewrite addInstructionToEvent_dom by done.
      rewrite (comm_L (∪) {[n]} (dom (events rt))). by rewrite <- (assoc_L (∪)).
    + rewrite run_operations_cons, IH; [|simpl; by rewrite doEvent_service|done].
      simpl. by rewrite doEvent_service.
Qed.

(** X12. The index loop of the compiled JavaScript visits what the
    [for]-[of] loop of the TypeScript visits: on every array and for every
    loop body, both make the same steps and stop at the same [break]. *)
Theorem compiled_loop_is_for_of {A} (body : A → Js Any W LoopControl)
    (xs : list A) rt :
  for_index (length xs) 0 xs body rt = for_of xs body rt.
Proof. rewrite for_index_for_of by lia. by rewrite drop_0. Qed.

(** X14. Registering under the name hasOwnProperty disables the service. On
    a registry whose method is intact the registration itself completes
    normally; from then on every call of [addInstructionToEvent], [doEvent],
    [executeInstructionsForEvent] and [_initializeEvent] raises [TypeError]
    and changes nothing, so that no program changes the runtime any more. *)
Theorem registering_hasOwnProperty_disables_service rt instruction :
  method_intact (service rt) →
  (addInstructionToEvent instruction "hasOwnProperty" rt).1 = Normal () ∧
  ∀ rt', rt' = (addInstructionToEvent instruction "hasOwnProperty" rt).2 →
    (∀ i n, addInstructionToEvent i n rt' = (Throw TypeError, rt')) ∧
    (∀ event, doEvent event rt' = (Throw TypeError, rt')) ∧
    (∀ event, executeInstructionsForEvent event rt' = (Throw TypeError, rt')) ∧
    (∀ n, _initializeEvent n rt' = (Throw TypeError, rt')) ∧
    (∀ ops, run_operations ops rt' = rt').
Proof.
  intros Hintact.
  rewrite (addInstructionToEvent_absent _ _ _ Hintact Hintact). split; [done|].
  intros rt' ->.
  assert (is_Some (events (with_registration rt "hasOwnProperty"
                     {| eventName := "hasOwnProperty"; eventParameters := None;
                        eventInstructions := Some [instruction] |})
                   !! "hasOwnProperty"%string)) as Hshadow.
  { simpl. rewrite lookup_insert_eq. eauto. }
  simpl. repeat split; intros.
  - by apply addInstructionToEvent_shadowed.
  - by apply doEvent_shadowed.
  - by apply executeInstructionsForEvent_shadowed.
  - by apply _initializeEvent_shadowed.
  - by apply run_operations_shadowed.
Qed.

End Composition.

(** ** The further facts on the applications *)

Import PageY.

Lemma registry_after_program_witness :
  _businessLogicEvents (service (run_operations wiring (new_runtime []))) !! "routeX"%string =
    registration_of "routeX" (registered_under "routeX" wiring).
Proof.
  apply (registry_after_program wiring [] "routeX").
  apply (bool_decide_unpack _). vm_compute. exact I.
Defined.


Lemma instruction_lists_only_grow_witness :
  _businessLogicEvents (service (run_operations wiring wired)) !! "routeX"%string =
    Some {| eventName := "routeX"; eventParameters := None;
            eventInstructions :=
              Some ([isOver14Days; isLoggedOut; isFirstLogin] ++
                    registered_under "routeX" wiring) |}.
Proof.
  apply (proj2 (instruction_lists_only_grow wiring wired "routeX" registered
                  [isOver14Days; isLoggedOut; isFirstLogin]
                  ltac:(vm_compute; reflexivity) eq_refl)).
  - vm_compute. reflexivity.
  - apply (bool_decide_unpack _). vm_compute. exact I.
Defined.


Lemma registrations_commute_witness :
  (addInstructionToEvent isLoggedOut "routeY"
     (addInstructionToEvent isFirstLogin "routeX" wired).2).2 =
  (addInstructionToEvent isFirstLogin "routeX"
     (addInstructionToEvent isLoggedOut "routeY" wired).2).2.
Proof.
  apply (registrations_commute wired isFirstLogin "routeX" isLoggedOut "routeY");
    discriminate.
Defined.

Lemma firing_commutes_with_registration_witness :
  (doEvent (routeX 0) (addInstructionToEvent isFirstLogin "routeY" wired).2).2 =
  (addInstructionToEvent isFirstLogin "routeY" (doEvent (routeX 0) wired).2).2.
Proof.
  apply (firing_commutes_with_registration wired (routeX 0) isFirstLogin "routeY");
    discriminate.
Defined.

Lemma new_instruction_has_lowest_priority_witness :
  ∃ calls w,
    doEvent (routeX 3) wired = (Normal true, after_calls wired w calls) ∧
    short_circuit_run (Some [3]) [isOver14Days; isLoggedOut; isFirstLogin]
      [] calls w ∧
    doEvent (routeX 3) (addInstructionToEvent isLoggedOut "routeX" wired).2 =
      (Normal true,
       if existsb outcome calls
       then after_calls (addInstructionToEvent isLoggedOut "routeX" wired).2 w calls
       else after_calls (addInstructionToEvent isLoggedOut "routeX" wired).2
              (isLoggedOut (Some [3]) w).2
              (calls ++ [call_of isLoggedOut (Some [3]) w])).
Proof.
  apply (new_instruction_has_lowest_priority wired (routeX 3)
           [isOver14Days; isLoggedOut; isFirstLogin] isLoggedOut).
  - vm_compute. reflexivity.
  - discriminate.
  - vm_compute. reflexivity.
Defined.

Lemma _initializeEvent_keeps_registrations_witness :
  _businessLogicEvents (service (_initializeEvent "routeY" wired).2) !! "routeX"%string =
    _businessLogicEvents (service wired) !! "routeX"%string ∧
  is_Some (_businessLogicEvents (service (_initializeEvent "routeY" wired).2)
             !! "routeY"%string).
Proof.
  split.
  - apply (proj1 (_initializeEvent_keeps_registrations wired "routeY")).
    vm_compute. eauto.
  - apply (proj2 (proj2 (_initializeEvent_keeps_registrations wired "routeY"))).
    vm_compute. reflexivity.
Defined.

Lemma executeInstructionsForEvent_on_object_key_witness :
  executeInstructionsForEvent (objectEvent 0) objectWired =
    doEvent (objectEvent 0) objectWired.
Proof.
  apply (executeInstructionsForEvent_on_object_key objectWired (objectEvent 0)).
  reflexivity.
Defined.

Lemma executeInstructionsForEvent_after_program_witness :
  executeInstructionsForEvent (routeX 3) (run_operations wiring (new_runtime [])) =
    (Throw TypeError, run_operations wiring (new_runtime [])).
Proof.
  apply (executeInstructionsForEvent_after_program wiring [] (routeX 3)).
  - apply (bool_decide_unpack _). vm_compute. exact I.
  - vm_compute. reflexivity.
Defined.

Lemma registered_names_after_program_witness :
  dom (_businessLogicEvents (service (run_operations wiring wired))) =
    dom (_businessLogicEvents (service wired)) ∪ list_to_set (registered_names wiring).
Proof.
  apply (proj2 (registered_names_after_program wiring wired)).
  - vm_compute. reflexivity.
  - apply (bool_decide_unpack _). vm_compute. exact I.
Defined.

Lemma registering_hasOwnProperty_disables_service_witness :
  (addInstructionToEvent isLoggedOut "hasOwnProperty" wired).1 = Normal () ∧
  doEvent (routeX 20) (addInstructionToEvent isLoggedOut "hasOwnProperty" wired).2 =
    (Throw TypeError, (addInstructionToEvent isLoggedOut "hasOwnProperty" wired).2).
Proof.
  destruct (registering_hasOwnProperty_disables_service wired isLoggedOut
              ltac:(vm_compute; reflexivity)) as [Hdone Hlater].
  split; [exact Hdone|].
  apply (Hlater _ eq_refl).
Defined.
